(** * netstream: blocking TCP connections and servers over platform sockets

    A shallow embedding of [connection.hpp] (namespace [netstream]).

    The header defines four classes: the abstract bases [Connection] and
    [Server], which own the [failure_reason] string and its accessor
    [get_failure], and the concrete [TCP_Connection] and [TCP_Server], which
    add a platform socket handle and a boolean flag.  Member functions are
    embedded as state-passing functions [this -> result * this]; functions
    that enter the operating system additionally thread the state of the
    platform's socket stack and return [None] while the call is blocked.

    The bodies of the members that are only declared in the header
    (the connecting constructor, the destructors, [read], [write],
    [TCP_Server]'s constructor and [accept]) are not part of the header; each
    of them is modelled from the specification and marked as such. *)

From Stdlib Require Import ZArith String List.
From stdpp Require Import gmap strings list relations.

Open Scope Z_scope.

(** ** The platform's socket stack

    Modelled from the spec: the socket stack is a collaborator of the library
    and no part of the header ("the operating system's socket stack
    (connect/bind/listen/accept/send/recv primitives) and its name-resolution
    facility", consumed "as black boxes").  It is modelled as a descriptor
    table; the remote side of every stream and the reachability of remote
    hosts belong to the environment and may change between any two calls
    ([env_step]). *)
Module Platform.

(** An established byte stream, seen from this process. *)
Record stream := mk_stream {
  rx : list Byte.byte;        (* received from the peer and not yet read *)
  tx : list Byte.byte;        (* accepted for transmission so far *)
  tx_room : nat;              (* room left in the kernel's send buffer *)
  peer_closed : bool;         (* the peer has closed its side *)
  broken : option string      (* transport error, with the platform's text *)
}.

(** A client in a listener's queue: its handshake completed, or it went away
    before being accepted. *)
Inductive arrival :=
| Established (client : stream)
| Aborted (reason : string).

(** What a descriptor refers to. *)
Inductive endpoint :=
| Conn (s : stream)
| Listener (port : Z) (backlog : list arrival).

Record OS := mk_OS {
  descriptors : gmap Z endpoint;    (* the handles open in this process *)
  close_calls : list Z;             (* every handle passed to close, latest first *)
  resolvable : gset string;         (* host names and literal addresses that resolve *)
  services : gset (string * Z)      (* remote (host, port) pairs that accept *)
}.

(** The value the platform reserves for "no socket" (-1, [INVALID_SOCKET]). *)
Definition INVALID_HANDLE : Z := -1.

(** What a primitive hands back to its caller. *)
Inductive recv_report :=
| RecvData (data : list Byte.byte)
| RecvFail (reason : string).

Inductive send_report :=
| Sent (n : nat)
| SendFail (reason : string).

Inductive open_report :=
| Opened (h : Z)
| OpenFail (reason : string).

Inductive accept_report :=
| Accepted (h : Z)
| AcceptFail (listener_lost : bool) (reason : string).

Definition set_descriptors (d : gmap Z endpoint) (w : OS) : OS :=
  {| descriptors := d; close_calls := close_calls w;
     resolvable := resolvable w; services := services w |}.

(** A handle that is not open in the process. *)
Definition fresh_handle (w : OS) : Z := fresh (dom (descriptors w)).

Definition idle_stream : stream :=
  {| rx := []; tx := []; tx_room := 4096; peer_closed := false; broken := None |}.

Definition bad_descriptor : string := "bad socket descriptor".
Definition unknown_host : string := "unknown host".
Definition connection_refused : string := "connection refused".
Definition address_in_use : string := "address already in use".

(** Modelled from the spec: close(h), "releases the underlying handle back
    to the operating system".  The call is recorded and the descriptor, if
    open, is gone. *)
Definition os_close (h : Z) (w : OS) : OS :=
  {| descriptors := delete h (descriptors w); close_calls := h :: close_calls w;
     resolvable := resolvable w; services := services w |}.

(** Modelled from the spec: recv on a stream.  "Blocks until at least one
    byte is available or the peer has closed the stream.  Fills up to count
    bytes into buffer; may return fewer than count."  An error if the
    transport is broken; otherwise up to [count] of the pending bytes;
    otherwise end of stream once the peer has closed; otherwise the caller
    stays blocked. *)
Definition stream_recv (count : Z) (s : stream) : option (recv_report * stream) :=
  match broken s with
  | Some reason => Some (RecvFail reason, s)
  | None =>
      match rx s with
      | _ :: _ =>
          let n := Z.to_nat count in
          Some (RecvData (take n (rx s)),
                {| rx := drop n (rx s); tx := tx s; tx_room := tx_room s;
                   peer_closed := peer_closed s; broken := broken s |})
      | [] => if peer_closed s then Some (RecvData [], s) else None
      end
  end.

Definition os_recv (h : Z) (count : Z) (w : OS) : option (recv_report * OS) :=
  match descriptors w !! h with
  | Some (Conn s) =>
      match stream_recv count s with
      | Some (rep, s') => Some (rep, set_descriptors (<[h := Conn s']> (descriptors w)) w)
      | None => None
      end
  | _ => Some (RecvFail bad_descriptor, w)
  end.

(** Modelled from the spec: send on a stream.  "Blocks as needed (kernel
    buffer pressure, protocol-level flow control) until it has accepted at
    least some bytes for transmission."  An error if the transport is broken;
    otherwise as many bytes as the send buffer has room for, blocking while
    it has none. *)
Definition stream_send (data : list Byte.byte) (s : stream) : option (send_report * stream) :=
  match broken s with
  | Some reason => Some (SendFail reason, s)
  | None =>
      match data, tx_room s with
      | [], _ => Some (Sent 0, s)
      | _ :: _, O => None
      | _ :: _, S _ =>
          let n := Nat.min (length data) (tx_room s) in
          Some (Sent n,
                {| rx := rx s; tx := tx s ++ take n data; tx_room := (tx_room s - n)%nat;
                   peer_closed := peer_closed s; broken := broken s |})
      end
  end.

Definition os_send (h : Z) (data : list Byte.byte) (w : OS) : option (send_report * OS) :=
  match descriptors w !! h with
  | Some (Conn s) =>
      match stream_send data s with
      | Some (rep, s') => Some (rep, set_descriptors (<[h := Conn s']> (descriptors w)) w)
      | None => None
      end
  | _ => Some (SendFail bad_descriptor, w)
  end.

(** Modelled from the spec: resolve [host] and open a stream to [port]
    ("accepts both a resolvable name and a literal network address").  A
    failure is a resolution failure or a connect failure; either way no
    descriptor is left behind ("no resource leak", "even if the object had
    already failed"). *)
Definition os_connect (host : string) (port : Z) (w : OS) : open_report * OS :=
  if bool_decide (host ∈ resolvable w) then
    if bool_decide ((host, port) ∈ services w) then
      let h := fresh_handle w in
      (Opened h, set_descriptors (<[h := Conn idle_stream]> (descriptors w)) w)
    else (OpenFail connection_refused, w)
  else (OpenFail unknown_host, w).

Definition listens_on (port : Z) (e : endpoint) : bool :=
  match e with
  | Listener p _ => bool_decide (p = port)
  | Conn _ => false
  end.

Definition port_in_use (port : Z) (w : OS) : bool :=
  bool_decide (map_Exists (λ _ e, listens_on port e = true) (descriptors w)).

(** Modelled from the spec: socket, bind to the wildcard address, listen.
    "Double-construction on the same port while the first TcpServer is still
    alive and listening fails (bind collision)."  On failure no descriptor is
    left behind. *)
Definition os_listen (port : Z) (w : OS) : open_report * OS :=
  if port_in_use port w then (OpenFail address_in_use, w)
  else
    let h := fresh_handle w in
    (Opened h, set_descriptors (<[h := Listener port []]> (descriptors w)) w).

(** Modelled from the spec: accept on a listening handle.  "Blocks until an
    inbound client completes its connection handshake."  Blocked while the
    queue is empty; otherwise the oldest arrival is taken off the queue, and a
    client whose handshake completed gets a descriptor of its own.  A handle
    that is not a listening socket is a failure of the listener itself. *)
Definition os_accept (lh : Z) (w : OS) : option (accept_report * OS) :=
  match descriptors w !! lh with
  | Some (Listener port backlog) =>
      match backlog with
      | [] => None
      | Established client :: rest =>
          let d := <[lh := Listener port rest]> (descriptors w) in
          let h := fresh (dom d) in
          Some (Accepted h, set_descriptors (<[h := Conn client]> d) w)
      | Aborted reason :: rest =>
          Some (AcceptFail false reason,
                set_descriptors (<[lh := Listener port rest]> (descriptors w)) w)
      end
  | _ => Some (AcceptFail true bad_descriptor, w)
  end.

(** The kind of endpoint behind a handle, if any. *)
Definition kind (e : option endpoint) : option bool :=
  match e with
  | Some (Conn _) => Some false
  | Some (Listener _ _) => Some true
  | None => None
  end.




(** Handle [h] is an established stream of the process. *)
Definition live_stream (w : OS) (h : Z) : Prop :=
  kind (descriptors w !! h) = Some false.

(** Handle [h] is an established stream whose transport has not failed. *)
Definition usable (w : OS) (h : Z) : Prop :=
  ∃ s, descriptors w !! h = Some (Conn s) ∧ broken s = None.

End Platform.

(** ** The classes of [connection.hpp] *)

(** [class Connection]: the abstract base.  Its only data member is
    [failure_reason]; [read], [write] and [isOk] are pure virtual. *)
Module Connection.

Record t := mk { failure_reason : string }.

(** The implicit default constructor: [std::string] default-constructs to the
    empty string. *)
Definition ctor : t := {| failure_reason := EmptyString |}.

(** [std::string get_failure( ) { return( failure_reason ); }] *)
Definition get_failure (this : t) : string * t := (failure_reason this, this).

End Connection.

(** [class Server]: the abstract base of listening endpoints, with the same
    [failure_reason] member and accessor. *)
Module Server.

Record t := mk { failure_reason : string }.

Definition ctor : t := {| failure_reason := EmptyString |}.

(** [std::string get_failure( ) { return( failure_reason ); }] *)
Definition get_failure (this : t) : string * t := (failure_reason this, this).

End Server.

(** [class TCP_Connection : public Connection]. *)
Module TCP_Connection.
Import Platform.

Record t := mk {
  base : Connection.t;          (* the Connection subobject *)
  connection_handle : Z;        (* int under ePOSIX, SOCKET under eWIN32 *)
  is_open : bool
}.

Definition failure_reason (this : t) : string := Connection.failure_reason (base this).

Definition set_base (b : Connection.t) (this : t) : t :=
  {| base := b; connection_handle := connection_handle this; is_open := is_open this |}.

(** [TCP_Connection( int existing_connection )
       : connection_handle( existing_connection ), is_open( true ) { }]
    The base subobject is default-constructed. *)
Definition ctor_adopt (existing_connection : Z) : t :=
  {| base := Connection.ctor;
     connection_handle := existing_connection;
     is_open := true |}.

(** [virtual bool isOk( ) { return( is_open ); }] *)
Definition isOk (this : t) : bool * t := (is_open this, this).

(** [get_failure] is inherited: it runs on the base subobject. *)
Definition get_failure (this : t) : string * t :=
  let '(reason, b) := Connection.get_failure (base this) in (reason, set_base b this).

(** Modelled from the spec: the state a platform-reported error leaves the
    object in, "is_open=false plus a human-readable failure_reason". *)
Definition failed (reason : string) (this : t) : t :=
  {| base := {| Connection.failure_reason := reason |};
     connection_handle := connection_handle this;
     is_open := false |}.

(** Modelled from the spec: the body of [TCP_Connection( const char *host,
    unsigned short port )] is missing.  "Resolves host and actively opens a
    byte-stream connection to port.  On any resolution or connection failure,
    the object is left with is_open=false and failure_reason set to a
    descriptive message." *)
Definition ctor_connect (host : string) (port : Z) (w : OS) : t * OS :=
  match os_connect host port w with
  | (Opened h, w') =>
      ({| base := Connection.ctor; connection_handle := h; is_open := true |}, w')
  | (OpenFail reason, w') =>
      ({| base := {| Connection.failure_reason := reason |};
          connection_handle := INVALID_HANDLE;
          is_open := false |}, w')
  end.

(** Modelled from the spec: the body of [~TCP_Connection()] is missing.
    "If is_open, releases the underlying handle back to the operating system;
    idempotent guard against double-release if already closed."  (The header
    says: "If the connection is open, it is closed.") *)
Definition dtor (this : t) (w : OS) : OS :=
  if is_open this then os_close (connection_handle this) w else w.

(** Modelled from the spec: what [read] makes of the platform's report.  The
    header documents the result as "the number of bytes read or zero on
    end-of-file"; the spec has "a return value less than 0" signal failure. *)
Definition on_recv (rep : recv_report) (this : t) : (Z * list Byte.byte) * t :=
  match rep with
  | RecvData data => ((Z.of_nat (length data), data), this)
  | RecvFail reason => ((-1, []), failed reason this)
  end.

(** Modelled from the spec: the body of [read] is missing.  "Delegate
    directly to platform socket primitives; translate a platform-reported
    error into is_open=false plus a human-readable failure_reason.  read
    returning exactly 0 signals a clean peer-initiated close and does not, by
    itself, flip is_open to false."  The result is the return value and the
    bytes stored in the buffer; [None] while the call is blocked. *)
Definition read (count : Z) (this : t) (w : OS)
  : option ((Z * list Byte.byte) * t * OS) :=
  match os_recv (connection_handle this) count w with
  | Some (rep, w') => Some (on_recv rep this, w')
  | None => None
  end.

(** Modelled from the spec: what [write] makes of the platform's report,
    "the number of bytes actually accepted", or -1 with the object marked
    failed. *)
Definition on_send (rep : send_report) (this : t) : Z * t :=
  match rep with
  | Sent n => (Z.of_nat n, this)
  | SendFail reason => (-1, failed reason this)
  end.

(** Modelled from the spec: the body of [write] is missing.  "Blocks as
    needed until it has accepted at least some bytes for transmission.
    Returns the number of bytes actually accepted."  Errors are translated as
    in [read].  The first [count] bytes of [buffer] are offered. *)
Definition write (buffer : list Byte.byte) (count : Z) (this : t) (w : OS)
  : option (Z * t * OS) :=
  match os_send (connection_handle this) (take (Z.to_nat count) buffer) w with
  | Some (rep, w') => Some (on_send rep this, w')
  | None => None
  end.

End TCP_Connection.

(** [class TCP_Server : public Server]. *)
Module TCP_Server.
Import Platform.

Record t := mk {
  base : Server.t;              (* the Server subobject *)
  listen_handle : Z;            (* int under ePOSIX, SOCKET under eWIN32 *)
  is_listening : bool
}.

Definition failure_reason (this : t) : string := Server.failure_reason (base this).

Definition set_base (b : Server.t) (this : t) : t :=
  {| base := b; listen_handle := listen_handle this; is_listening := is_listening this |}.

(** [virtual bool isOk( ) { return( is_listening ); }] *)
Definition isOk (this : t) : bool * t := (is_listening this, this).

(** [get_failure] is inherited: it runs on the base subobject. *)
Definition get_failure (this : t) : string * t :=
  let '(reason, b) := Server.get_failure (base this) in (reason, set_base b this).

(** Modelled from the spec: the body of [TCP_Server( unsigned short port )]
    is missing.  "Creates a listening socket, binds it to the given port on
    all local interfaces, and places it into a listening state.  Failure at
    any step leaves is_listening=false and a descriptive failure_reason." *)
Definition ctor (port : Z) (w : OS) : t * OS :=
  match os_listen port w with
  | (Opened h, w') =>
      ({| base := Server.ctor; listen_handle := h; is_listening := true |}, w')
  | (OpenFail reason, w') =>
      ({| base := {| Server.failure_reason := reason |};
          listen_handle := INVALID_HANDLE;
          is_listening := false |}, w')
  end.

(** Modelled from the spec: the body of [~TCP_Server( )] is missing.  "If
    is_listening, closes the listening handle; does not affect connections
    already produced by prior accept() calls." *)
Definition dtor (this : t) (w : OS) : OS :=
  if is_listening this then os_close (listen_handle this) w else w.

(** Modelled from the spec: what [accept] makes of the platform's report.  A
    client is wrapped by the handle-adopting constructor in a newly allocated
    object.  On failure no object is returned (a null pointer) and the reason
    is recorded in the server; a failure of the listener itself also clears
    [is_listening], any other failure leaves the flag as it is. *)
Definition on_accept (rep : accept_report) (this : t)
  : option TCP_Connection.t * t :=
  match rep with
  | Accepted h => (Some (TCP_Connection.ctor_adopt h), this)
  | AcceptFail listener_lost reason =>
      (None,
       {| base := {| Server.failure_reason := reason |};
          listen_handle := listen_handle this;
          is_listening := is_listening this && negb listener_lost |})
  end.

(** Modelled from the spec: the body of [accept] is missing.  "Blocks until a
    client connects; on success, wraps the newly accepted platform handle in a
    TcpConnection via the handle-adopting constructor and returns it.
    Listener-level failures should also be reflected in the server's own
    isOk()."  [None] while the call is blocked; the inner option is the
    returned pointer. *)
Definition accept (this : t) (w : OS) : option (option TCP_Connection.t * t * OS) :=
  match os_accept (listen_handle this) w with
  | Some (rep, w') => Some (on_accept rep this, w')
  | None => None
  end.

End TCP_Server.

(** ** The declarations of [connection.hpp]

    Every member function the header declares, with the access its
    declaration has.  All of them stand under [public:] except the copy
    constructor and the copy assignment operator of the two concrete
    classes, which stand under [private:] after the comment "Disable
    copying" and are never defined. *)
Module Header.

Inductive access :=
| Public
| Protected
| Private.

Inductive member :=
| Connection_get_failure        (* std::string get_failure( ) *)
| TCP_Connection_connect        (* TCP_Connection( const char *host, unsigned short port ) *)
| TCP_Connection_adopt          (* TCP_Connection( int existing_connection ) *)
| TCP_Connection_destroy        (* ~TCP_Connection() *)
| TCP_Connection_read           (* virtual int read(char *buffer, int count) *)
| TCP_Connection_write          (* virtual int write(const char *buffer, int count) *)
| TCP_Connection_isOk           (* virtual bool isOk( ) *)
| TCP_Connection_copy           (* TCP_Connection( const TCP_Connection & ) *)
| TCP_Connection_assign         (* TCP_Connection &operator=( const TCP_Connection & ) *)
| Server_get_failure            (* std::string get_failure( ) *)
| TCP_Server_listen             (* TCP_Server( unsigned short port ) *)
| TCP_Server_destroy            (* ~TCP_Server( ) *)
| TCP_Server_accept             (* virtual TCP_Connection *accept( ) *)
| TCP_Server_isOk               (* virtual bool isOk( ) *)
| TCP_Server_copy               (* TCP_Server( const TCP_Server & ) *)
| TCP_Server_assign.            (* TCP_Server &operator=( const TCP_Server & ) *)

Definition access_of (m : member) : access :=
  match m with
  | TCP_Connection_copy | TCP_Connection_assign
  | TCP_Server_copy | TCP_Server_assign => Private
  | _ => Public
  end.

End Header.

(** ** A process using the library

    The objects a program has constructed and not yet destroyed, next to the
    socket stack.  A program can attempt every member function the header
    declares, the copy operations included, and can do to the socket stack
    whatever the platform lets it do, closing handles included.  Code
    outside the two classes can only use a member whose declaration is
    public; an attempt to use another one is not a program ([exec] has no
    result for it). *)
Module Process.
Import Platform.

Record t := mk {
  os : OS;
  conns : gmap nat TCP_Connection.t;      (* live TCP_Connection objects, by address *)
  servers : gmap nat TCP_Server.t         (* live TCP_Server objects, by address *)
}.

Inductive op :=
| NewConnect (a : nat) (host : string) (port : Z)   (* new TCP_Connection(host, port) *)
| NewAdopt (a : nat) (h : Z)                        (* new TCP_Connection(h) *)
| DeleteConn (a : nat)
| Read (a : nat) (count : Z)
| Write (a : nat) (buffer : list Byte.byte) (count : Z)
| ConnIsOk (a : nat)
| ConnGetFailure (a : nat)
| NewServer (a : nat) (port : Z)                    (* new TCP_Server(port) *)
| DeleteServer (a : nat)
| Accept (a : nat) (a' : nat)                       (* the result, if any, lives at a' *)
| ServerIsOk (a : nat)
| ServerGetFailure (a : nat)
| CopyConn (a a' : nat)                             (* copy-construct a TCP_Connection at a' from the one at a *)
| AssignConn (a a' : nat)                           (* assign the object at a to the one at a' *)
| CopyServer (a a' : nat)                           (* copy-construct a TCP_Server at a' from the one at a *)
| AssignServer (a a' : nat)                         (* assign the object at a to the one at a' *)
| Platform (w' : OS).                               (* the socket stack moves to w' *)

(** The member function an operation invokes.  [Platform] invokes none: it
    stands for the program's own calls to the platform (opening, closing,
    reading from a raw handle) and for the activity of the environment. *)
Definition member_of (o : op) : option Header.member :=
  match o with
  | NewConnect _ _ _ => Some Header.TCP_Connection_connect
  | NewAdopt _ _ => Some Header.TCP_Connection_adopt
  | DeleteConn _ => Some Header.TCP_Connection_destroy
  | Read _ _ => Some Header.TCP_Connection_read
  | Write _ _ _ => Some Header.TCP_Connection_write
  | ConnIsOk _ => Some Header.TCP_Connection_isOk
  | ConnGetFailure _ => Some Header.Connection_get_failure
  | NewServer _ _ => Some Header.TCP_Server_listen
  | DeleteServer _ => Some Header.TCP_Server_destroy
  | Accept _ _ => Some Header.TCP_Server_accept
  | ServerIsOk _ => Some Header.TCP_Server_isOk
  | ServerGetFailure _ => Some Header.Server_get_failure
  | CopyConn _ _ => Some Header.TCP_Connection_copy
  | AssignConn _ _ => Some Header.TCP_Connection_assign
  | CopyServer _ _ => Some Header.TCP_Server_copy
  | AssignServer _ _ => Some Header.TCP_Server_assign
  | Platform _ => None
  end.

(** Code outside the classes may use the operation. *)
Definition permitted (o : op) : bool :=
  match member_of o with
  | Some m =>
      match Header.access_of m with
      | Header.Public => true
      | _ => false
      end
  | None => true
  end.

Definition put_conn (a : nat) (c : TCP_Connection.t) (w : OS) (p : t) : t :=
  {| os := w; conns := <[a := c]> (conns p); servers := servers p |}.

Definition put_server (a : nat) (s : TCP_Server.t) (w : OS) (p : t) : t :=
  {| os := w; conns := conns p; servers := <[a := s]> (servers p) |}.

(** What an operation does; [None] when it cannot be performed now (the call
    blocks, the address is not that of a live object, or the address of a new
    object is taken).  The copy operations are given the meaning of the
    memberwise copies that the header's declarations replace: every member,
    the handle included, is duplicated and nothing is opened or closed. *)
Definition run (o : op) (p : t) : option t :=
  match o with
  | NewConnect a host port =>
      match conns p !! a with
      | None =>
          let '(c, w) := TCP_Connection.ctor_connect host port (os p) in
          Some (put_conn a c w p)
      | Some _ => None
      end
  | NewAdopt a h =>
      match conns p !! a with
      | None => Some (put_conn a (TCP_Connection.ctor_adopt h) (os p) p)
      | Some _ => None
      end
  | DeleteConn a =>
      match conns p !! a with
      | Some c =>
          Some {| os := TCP_Connection.dtor c (os p);
                  conns := delete a (conns p); servers := servers p |}
      | None => None
      end
  | Read a count =>
      match conns p !! a with
      | Some c =>
          match TCP_Connection.read count c (os p) with
          | Some (_, c', w) => Some (put_conn a c' w p)
          | None => None
          end
      | None => None
      end
  | Write a buffer count =>
      match conns p !! a with
      | Some c =>
          match TCP_Connection.write buffer count c (os p) with
          | Some (_, c', w) => Some (put_conn a c' w p)
          | None => None
          end
      | None => None
      end
  | ConnIsOk a =>
      match conns p !! a with
      | Some c => Some (put_conn a (snd (TCP_Connection.isOk c)) (os p) p)
      | None => None
      end
  | ConnGetFailure a =>
      match conns p !! a with
      | Some c => Some (put_conn a (snd (TCP_Connection.get_failure c)) (os p) p)
      | None => None
      end
  | NewServer a port =>
      match servers p !! a with
      | None =>
          let '(s, w) := TCP_Server.ctor port (os p) in
          Some (put_server a s w p)
      | Some _ => None
      end
  | DeleteServer a =>
      match servers p !! a with
      | Some s =>
          Some {| os := TCP_Server.dtor s (os p);
                  conns := conns p; servers := delete a (servers p) |}
      | None => None
      end
  | Accept a a' =>
      match servers p !! a, conns p !! a' with
      | Some s, None =>
          match TCP_Server.accept s (os p) with
          | Some (Some c, s', w) =>
              Some {| os := w; conns := <[a' := c]> (conns p);
                      servers := <[a := s']> (servers p) |}
          | Some (None, s', w) => Some (put_server a s' w p)
          | None => None
          end
      | _, _ => None
      end
  | ServerIsOk a =>
      match servers p !! a with
      | Some s => Some (put_server a (snd (TCP_Server.isOk s)) (os p) p)
      | None => None
      end
  | ServerGetFailure a =>
      match servers p !! a with
      | Some s => Some (put_server a (snd (TCP_Server.get_failure s)) (os p) p)
      | None => None
      end
  | CopyConn a a' =>
      match conns p !! a, conns p !! a' with
      | Some c, None => Some (put_conn a' c (os p) p)
      | _, _ => None
      end
  | AssignConn a a' =>
      match conns p !! a, conns p !! a' with
      | Some c, Some _ => Some (put_conn a' c (os p) p)
      | _, _ => None
      end
  | CopyServer a a' =>
      match servers p !! a, servers p !! a' with
      | Some s, None => Some (put_server a' s (os p) p)
      | _, _ => None
      end
  | AssignServer a a' =>
      match servers p !! a, servers p !! a' with
      | Some s, Some _ => Some (put_server a' s (os p) p)
      | _, _ => None
      end
  | Platform w' => Some {| os := w'; conns := conns p; servers := servers p |}
  end.

(** One operation of a program: what the operation does, if code outside the
    classes may use it. *)
Definition exec (o : op) (p : t) : option t :=
  if permitted o then run o p else None.

(** A list of operations, one after the other. *)
Fixpoint exec_all (ops : list op) (p : t) : option t :=
  match ops with
  | [] => Some p
  | o :: rest =>
      match exec o p with
      | Some p' => exec_all rest p'
      | None => None
      end
  end.

(** Object [a] is a live, open connection holding handle [h]. *)
Definition holds_conn (p : t) (a : nat) (h : Z) : Prop :=
  ∃ c, conns p !! a = Some c ∧
       TCP_Connection.is_open c = true ∧ TCP_Connection.connection_handle c = h.

(** Object [a] is a live, listening server holding handle [h]. *)
Definition holds_server (p : t) (a : nat) (h : Z) : Prop :=
  ∃ s, servers p !! a = Some s ∧
       TCP_Server.is_listening s = true ∧ TCP_Server.listen_handle s = h.

(** No live object holds [h]. *)
Definition unowned (p : t) (h : Z) : Prop :=
  (∀ a, ¬ holds_conn p a h) ∧ (∀ a, ¬ holds_server p a h).

(** Some live object holds [h]. *)
Definition held (p : t) (h : Z) : Prop :=
  (∃ a, holds_conn p a h) ∨ (∃ a, holds_server p a h).

(** The two rules the header lays on the caller ("After this constructor
    returns the TCP_Connection object owns the connection.  Do not close the
    original copy of the socket handle."): the handle-adopting constructor is
    given an established connection of this process that no live object
    holds, and whatever else happens to the socket stack leaves every handle
    that a live object holds open as what it is. *)
Definition caller_ok (o : op) (p : t) : Prop :=
  match o with
  | NewAdopt _ h => kind (descriptors (os p) !! h) = Some false ∧ unowned p h
  | Platform w' =>
      ∀ h, held p h → kind (descriptors w' !! h) = kind (descriptors (os p) !! h)
  | _ => True
  end.

(** One operation of a program that honours the caller's rules. *)
Definition disciplined_step (p p' : t) : Prop :=
  ∃ o, caller_ok o p ∧ exec o p = Some p'.

(** Exclusive ownership: every open connection holds an established stream
    of the process, every listening server holds a listening socket of the
    process, and no two live objects hold the same handle. *)
Record exclusive (p : t) : Prop := {
  conn_live : ∀ a h, holds_conn p a h → kind (descriptors (os p) !! h) = Some false;
  server_live : ∀ a h, holds_server p a h → kind (descriptors (os p) !! h) = Some true;
  conn_unique : ∀ a1 a2 h, holds_conn p a1 h → holds_conn p a2 h → a1 = a2;
  server_unique : ∀ a1 a2 h, holds_server p a1 h → holds_server p a2 h → a1 = a2
}.

Definition empty_os : OS :=
  {| descriptors := ∅; close_calls := []; resolvable := ∅; services := ∅ |}.

(** A process that has constructed nothing yet. *)
Definition start (w : OS) : t := {| os := w; conns := ∅; servers := ∅ |}.

End Process.

(** ** Sequences of calls on one object *)
Module Calls.
Import Platform.

(** The member functions a caller can invoke on a [TCP_Connection]. *)
Inductive conn_call :=
| CRead (count : Z)
| CWrite (buffer : list Byte.byte) (count : Z)
| CIsOk
| CGetFailure.

Definition conn_exec (k : conn_call) (c : TCP_Connection.t) (w : OS)
  : option (TCP_Connection.t * OS) :=
  match k with
  | CRead count =>
      match TCP_Connection.read count c w with
      | Some (_, c', w') => Some (c', w')
      | None => None
      end
  | CWrite buffer count =>
      match TCP_Connection.write buffer count c w with
      | Some (_, c', w') => Some (c', w')
      | None => None
      end
  | CIsOk => Some (snd (TCP_Connection.isOk c), w)
  | CGetFailure => Some (snd (TCP_Connection.get_failure c), w)
  end.

(** One step in the life of a connection object: anything at all happens to
    the socket stack, or the caller invokes a member function and it
    returns. *)
Definition conn_step (x y : TCP_Connection.t * OS) : Prop :=
  fst y = fst x ∨ ∃ k, conn_exec k (fst x) (snd x) = Some y.

(** The member functions a caller can invoke on a [TCP_Server]. *)
Inductive server_call :=
| SAccept
| SIsOk
| SGetFailure.

Definition server_exec (k : server_call) (s : TCP_Server.t) (w : OS)
  : option (TCP_Server.t * OS) :=
  match k with
  | SAccept =>
      match TCP_Server.accept s w with
      | Some (_, s', w') => Some (s', w')
      | None => None
      end
  | SIsOk => Some (snd (TCP_Server.isOk s), w)
  | SGetFailure => Some (snd (TCP_Server.get_failure s), w)
  end.

Definition server_step (x y : TCP_Server.t * OS) : Prop :=
  fst y = fst x ∨ ∃ k, server_exec k (fst x) (snd x) = Some y.



End Calls.

(** ** Polling the status of an object

    The two member functions that the header defines inline for both concrete
    classes are the status queries [isOk] and [get_failure].  A caller may
    invoke them in any order and any number of times; [poll] runs such a
    sequence on one object, threading the object through the calls as the
    member functions leave it, and collects the answers. *)
Module Queries.

Inductive query :=
| IsOk
| GetFailure.

Inductive answer :=
| Flag (b : bool)
| Reason (text : string).

Section poll.
Context {T : Type} (ask : query → T → answer * T).

Fixpoint poll (qs : list query) (this : T) : list answer * T :=
  match qs with
  | [] => ([], this)
  | q :: rest =>
      let '(a, this1) := ask q this in
      let '(answers, this2) := poll rest this1 in
      (a :: answers, this2)
  end.

End poll.

(** One query on a [TCP_Connection], through the member function itself. *)
Definition conn_ask (q : query) (this : TCP_Connection.t) : answer * TCP_Connection.t :=
  match q with
  | IsOk => let '(b, this') := TCP_Connection.isOk this in (Flag b, this')
  | GetFailure => let '(r, this') := TCP_Connection.get_failure this in (Reason r, this')
  end.

(** One query on a [TCP_Server], through the member function itself. *)
Definition server_ask (q : query) (this : TCP_Server.t) : answer * TCP_Server.t :=
  match q with
  | IsOk => let '(b, this') := TCP_Server.isOk this in (Flag b, this')
  | GetFailure => let '(r, this') := TCP_Server.get_failure this in (Reason r, this')
  end.

End Queries.

(** ** Concrete states used in the examples below *)
Module Examples.
Import Platform.

(** A stream on which one byte is waiting and the peer is still there. *)
Definition one_byte_pending : stream :=
  {| rx := [Byte.x2a]; tx := []; tx_room := 16; peer_closed := false; broken := None |}.

(** A stream the peer has closed after everything it sent was read. *)
Definition finished : stream :=
  {| rx := []; tx := []; tx_room := 16; peer_closed := true; broken := None |}.

Definition os_with (d : gmap Z endpoint) : OS :=
  {| descriptors := d; close_calls := []; resolvable := ∅; services := ∅ |}.

(** Handle 3 is a stream with one byte pending. *)
Definition os_pending : OS := os_with {[ 3 := Conn one_byte_pending ]}.

(** Handle 3 is a stream at its end. *)
Definition os_finished : OS := os_with {[ 3 := Conn finished ]}.

(** Handle 4 listens on port 8080; one client has completed its handshake. *)
Definition os_listening : OS :=
  os_with {[ 4 := Listener 8080 [Established idle_stream] ]}.

(** Nothing is open; "localhost" resolves and serves port 8080. *)
Definition os_reachable : OS :=
  {| descriptors := ∅; close_calls := [];
     resolvable := {[ "localhost"%string ]};
     services := {[ ("localhost"%string, 8080) ]} |}.

(** Handle 3 is a stream whose transport has failed. *)
Definition os_reset : OS :=
  os_with {[ 3 := Conn {| rx := []; tx := []; tx_room := 16; peer_closed := false;
                          broken := Some "connection reset by peer"%string |} ]}.

(** The process after [new TCP_Connection(3)] at address 0. *)
Definition adopted_once : Process.t :=
  {| Process.os := os_pending;
     Process.conns := {[ 0%nat := TCP_Connection.ctor_adopt 3 ]};
     Process.servers := ∅ |}.

(** The process after a second [new TCP_Connection(3)], at address 1. *)
Definition adopted_twice : Process.t :=
  {| Process.os := os_pending;
     Process.conns := {[ 0%nat := TCP_Connection.ctor_adopt 3;
                         1%nat := TCP_Connection.ctor_adopt 3 ]};
     Process.servers := ∅ |}.

(** Handle 3 is an idle stream; "localhost" resolves and serves port 8080. *)
Definition os_busy : OS :=
  {| descriptors := {[ 3 := Conn idle_stream ]}; close_calls := [];
     resolvable := {[ "localhost"%string ]};
     services := {[ ("localhost"%string, 8080) ]} |}.

(** The operations of a program with two connections and two servers. *)
Definition two_and_two : list Process.op :=
  [Process.NewAdopt 0 3; Process.NewConnect 1 "localhost" 8080;
   Process.NewServer 0 9090; Process.NewServer 1 9091].

(** The process those operations lead to from [os_busy]. *)
Definition two_and_two_state : Process.t :=
  {| Process.os :=
       {| descriptors := {[ 3 := Conn idle_stream; 4 := Conn idle_stream;
                            5 := Listener 9090 []; 6 := Listener 9091 [] ]};
          close_calls := [];
          resolvable := {[ "localhost"%string ]};
          services := {[ ("localhost"%string, 8080) ]} |};
     Process.conns := {[ 0%nat := TCP_Connection.ctor_adopt 3;
                         1%nat := TCP_Connection.ctor_adopt 4 ]};
     Process.servers :=
       {[ 0%nat := {| TCP_Server.base := Server.ctor; TCP_Server.listen_handle := 5;
                      TCP_Server.is_listening := true |};
          1%nat := {| TCP_Server.base := Server.ctor; TCP_Server.listen_handle := 6;
                      TCP_Server.is_listening := true |} ]} |}.

Definition server_on_4 : TCP_Server.t :=
  {| TCP_Server.base := Server.ctor; TCP_Server.listen_handle := 4;
     TCP_Server.is_listening := true |}.

End Examples.

(** * Properties *)

Import Platform.

(** ** Queries leave the object alone *)

Lemma conn_isOk_same (c : TCP_Connection.t) : snd (TCP_Connection.isOk c) = c.
Proof. reflexivity. Qed.

Lemma conn_get_failure_same (c : TCP_Connection.t) :
  snd (TCP_Connection.get_failure c) = c.
Proof. by destruct c as [[reason] h o]. Qed.

Lemma server_isOk_same (s : TCP_Server.t) : snd (TCP_Server.isOk s) = s.
Proof. reflexivity. Qed.

Lemma server_get_failure_same (s : TCP_Server.t) :
  snd (TCP_Server.get_failure s) = s.
Proof. by destruct s as [[reason] h l]. Qed.

Lemma conn_get_failure_value (c : TCP_Connection.t) :
  fst (TCP_Connection.get_failure c) = TCP_Connection.failure_reason c.
Proof. reflexivity. Qed.

Lemma server_get_failure_value (s : TCP_Server.t) :
  fst (TCP_Server.get_failure s) = TCP_Server.failure_reason s.
Proof. reflexivity. Qed.

(** C1. The handle-adopting constructor stores the handle it is given and
    sets [is_open] to true whatever the handle is and whatever the socket
    stack knows about it, so that [isOk] answers true right after
    construction; the handle now belongs to the object: destroying the object
    is what passes it to close. *)
Theorem C1_adopt_constructor (h : Z) (w : OS) :
  TCP_Connection.connection_handle (TCP_Connection.ctor_adopt h) = h ∧
  TCP_Connection.is_open (TCP_Connection.ctor_adopt h) = true ∧
  TCP_Connection.isOk (TCP_Connection.ctor_adopt h) = (true, TCP_Connection.ctor_adopt h) ∧
  close_calls (TCP_Connection.dtor (TCP_Connection.ctor_adopt h) w) = h :: close_calls w.
Proof. repeat split. Qed.

(** C10. [get_failure] is a pure query on connections and on servers: it
    returns the stored [failure_reason] and leaves the whole object as it was,
    so asking twice in a row gives the same string twice. *)
Theorem C10_get_failure_pure (b : Connection.t) (v : Server.t)
    (c : TCP_Connection.t) (s : TCP_Server.t) :
  (Connection.get_failure b = (Connection.failure_reason b, b) ∧
   Server.get_failure v = (Server.failure_reason v, v)) ∧
  (TCP_Connection.get_failure c = (TCP_Connection.failure_reason c, c) ∧
   TCP_Server.get_failure s = (TCP_Server.failure_reason s, s)) ∧
  (fst (TCP_Connection.get_failure (snd (TCP_Connection.get_failure c)))
     = fst (TCP_Connection.get_failure c) ∧
   fst (TCP_Server.get_failure (snd (TCP_Server.get_failure s)))
     = fst (TCP_Server.get_failure s)).
Proof.
  split; [by split|].
  rewrite (surjective_pairing (TCP_Connection.get_failure c)).
  rewrite (surjective_pairing (TCP_Server.get_failure s)).
  rewrite !conn_get_failure_same, !server_get_failure_same.
  by rewrite conn_get_failure_value, server_get_failure_value.
Qed.

(** ** What the platform's reports do to an object *)

Lemma on_recv_open (rep : recv_report) (c : TCP_Connection.t) :
  TCP_Connection.is_open (snd (TCP_Connection.on_recv rep c)) = true →
  snd (TCP_Connection.on_recv rep c) = c.
Proof. by destruct rep. Qed.

Lemma on_send_open (rep : send_report) (c : TCP_Connection.t) :
  TCP_Connection.is_open (snd (TCP_Connection.on_send rep c)) = true →
  snd (TCP_Connection.on_send rep c) = c.
Proof. by destruct rep. Qed.

Lemma read_inv count c w r c' w' :
  TCP_Connection.read count c w = Some (r, c', w') →
  ∃ rep, os_recv (TCP_Connection.connection_handle c) count w = Some (rep, w') ∧
         TCP_Connection.on_recv rep c = (r, c').
Proof.
  unfold TCP_Connection.read. intros H.
  destruct (os_recv _ _ _) as [[rep w1]|]; [|done].
  exists rep. by simplify_eq.
Qed.

Lemma write_inv buffer count c w rc c' w' :
  TCP_Connection.write buffer count c w = Some (rc, c', w') →
  ∃ rep, os_send (TCP_Connection.connection_handle c)
                 (take (Z.to_nat count) buffer) w = Some (rep, w') ∧
         TCP_Connection.on_send rep c = (rc, c').
Proof.
  unfold TCP_Connection.write. intros H.
  destruct (os_send _ _ _) as [[rep w1]|]; [|done].
  exists rep. by simplify_eq.
Qed.

Lemma accept_inv s w r s' w' :
  TCP_Server.accept s w = Some (r, s', w') →
  ∃ rep, os_accept (TCP_Server.listen_handle s) w = Some (rep, w') ∧
         TCP_Server.on_accept rep s = (r, s').
Proof.
  unfold TCP_Server.accept. intros H.
  destruct (os_accept _ _) as [[rep w1]|]; [|done].
  exists rep. by simplify_eq.
Qed.

(** A member function that returns leaves a closed connection closed. *)
Lemma conn_exec_stays_closed k c w c' w' :
  Calls.conn_exec k c w = Some (c', w') →
  TCP_Connection.is_open c = false → TCP_Connection.is_open c' = false.
Proof.
  intros H Hc. destruct k as [count|buffer count| |]; cbn [Calls.conn_exec] in H.
  - destruct (TCP_Connection.read _ _ _) as [[[r c1] w1]|] eqn:E; simplify_eq.
    apply read_inv in E as (rep & _ & E). by destruct rep; simplify_eq/=.
  - destruct (TCP_Connection.write _ _ _ _) as [[[r c1] w1]|] eqn:E; simplify_eq.
    apply write_inv in E as (rep & _ & E). by destruct rep; simplify_eq/=.
  - by simplify_eq.
  - simplify_eq. by rewrite conn_get_failure_same.
Qed.

Lemma server_exec_stays_closed k s w s' w' :
  Calls.server_exec k s w = Some (s', w') →
  TCP_Server.is_listening s = false → TCP_Server.is_listening s' = false.
Proof.
  intros H Hs. destruct k; cbn [Calls.server_exec] in H.
  - destruct (TCP_Server.accept _ _) as [[[r s1] w1]|] eqn:E; simplify_eq.
    apply accept_inv in E as (rep & _ & E).
    destruct rep; simplify_eq/=; [done|]. by rewrite Hs.
  - by simplify_eq.
  - simplify_eq. by rewrite server_get_failure_same.
Qed.

Lemma conn_run_stays_closed (x y : TCP_Connection.t * OS) :
  rtc Calls.conn_step x y →
  TCP_Connection.is_open (fst x) = false → TCP_Connection.is_open (fst y) = false.
Proof.
  induction 1 as [x|x y z Hstep _ IH]; [done|].
  intros Hx. apply IH. destruct Hstep as [Heq|[k Hk]].
  - by rewrite Heq.
  - destruct x as [c w], y as [c' w']. by eapply conn_exec_stays_closed.
Qed.

Lemma server_run_stays_closed (x y : TCP_Server.t * OS) :
  rtc Calls.server_step x y →
  TCP_Server.is_listening (fst x) = false → TCP_Server.is_listening (fst y) = false.
Proof.
  induction 1 as [x|x y z Hstep _ IH]; [done|].
  intros Hx. apply IH. destruct Hstep as [Heq|[k Hk]].
  - by rewrite Heq.
  - destruct x as [s w], y as [s' w']. by eapply server_exec_stays_closed.
Qed.

(** C7. Closed is terminal.  Along any sequence of calls to [read], [write],
    [isOk] and [get_failure] on a connection, interleaved with arbitrary
    activity of the socket stack, [is_open] never goes from false back to
    true; likewise [is_listening] along calls to [accept], [isOk] and
    [get_failure] on a server. *)
Theorem C7_closed_is_terminal :
  (∀ c w c' w', rtc Calls.conn_step (c, w) (c', w') →
     TCP_Connection.is_open c = false → TCP_Connection.is_open c' = false) ∧
  (∀ s w s' w', rtc Calls.server_step (s, w) (s', w') →
     TCP_Server.is_listening s = false → TCP_Server.is_listening s' = false).
Proof.
  split.
  - intros c w c' w' Hrun. apply (conn_run_stays_closed _ _ Hrun).
  - intros s w s' w' Hrun. apply (server_run_stays_closed _ _ Hrun).
Qed.

(** ** Reading *)


(** [read] returns as soon as the stream has something to say. *)
Lemma read_returns count c w s :
  descriptors w !! TCP_Connection.connection_handle c = Some (Conn s) →
  rx s ≠ [] ∨ peer_closed s = true ∨ broken s ≠ None →
  is_Some (TCP_Connection.read count c w).
Proof.
  intros Hh Hs. unfold TCP_Connection.read, os_recv, stream_recv. rewrite Hh.
  destruct (broken s); [done|].
  destruct (rx s); [|done].
  destruct (peer_closed s); [done|].
  destruct Hs as [?|[?|?]]; congruence.
Qed.




(** ** Construction *)

Lemma ctor_connect_cases host port w :
  (∃ h, TCP_Connection.ctor_connect host port w =
          ({| TCP_Connection.base := Connection.ctor;
              TCP_Connection.connection_handle := h;
              TCP_Connection.is_open := true |},
           set_descriptors (<[h := Conn idle_stream]> (descriptors w)) w) ∧
        h = fresh_handle w) ∨
  (∃ reason, TCP_Connection.ctor_connect host port w =
          ({| TCP_Connection.base := {| Connection.failure_reason := reason |};
              TCP_Connection.connection_handle := INVALID_HANDLE;
              TCP_Connection.is_open := false |}, w) ∧
        reason ≠ EmptyString).
Proof.
  unfold TCP_Connection.ctor_connect, os_connect.
  repeat case_bool_decide; [left|right..]; eauto.
Qed.

Lemma server_ctor_cases port w :
  (∃ h, TCP_Server.ctor port w =
          ({| TCP_Server.base := Server.ctor;
              TCP_Server.listen_handle := h;
              TCP_Server.is_listening := true |},
           set_descriptors (<[h := Listener port []]> (descriptors w)) w) ∧
        h = fresh_handle w) ∨
  (∃ reason, TCP_Server.ctor port w =
          ({| TCP_Server.base := {| Server.failure_reason := reason |};
              TCP_Server.listen_handle := INVALID_HANDLE;
              TCP_Server.is_listening := false |}, w) ∧
        reason ≠ EmptyString).
Proof.
  unfold TCP_Server.ctor, os_listen.
  destruct (port_in_use port w); [right|left]; eauto.
Qed.

(** C9. On a freshly constructed object on which no failure has been
    recorded, [get_failure] returns the empty string: the member is a
    default-constructed string in both base classes, the handle-adopting
    constructor does not touch it, and neither does a construction that
    succeeds. *)
Theorem C9_fresh_failure_reason_empty :
  (fst (Connection.get_failure Connection.ctor) = EmptyString ∧
   fst (Server.get_failure Server.ctor) = EmptyString) ∧
  (∀ h, fst (TCP_Connection.get_failure (TCP_Connection.ctor_adopt h)) = EmptyString) ∧
  (∀ host port w,
     TCP_Connection.is_open (fst (TCP_Connection.ctor_connect host port w)) = true →
     fst (TCP_Connection.get_failure (fst (TCP_Connection.ctor_connect host port w)))
       = EmptyString) ∧
  (∀ port w,
     TCP_Server.is_listening (fst (TCP_Server.ctor port w)) = true →
     fst (TCP_Server.get_failure (fst (TCP_Server.ctor port w))) = EmptyString).
Proof.
  split_and!; [done..| |].
  - intros host port w.
    destruct (ctor_connect_cases host port w) as [(h & -> & _)|(r & -> & _)]; done.
  - intros port w.
    destruct (server_ctor_cases port w) as [(h & -> & _)|(r & -> & _)]; done.
Qed.

Lemma C9_fresh_failure_reason_empty_witness :
  fst (TCP_Connection.get_failure
         (fst (TCP_Connection.ctor_connect "localhost" 8080 Examples.os_reachable)))
    = EmptyString ∧
  fst (TCP_Server.get_failure (fst (TCP_Server.ctor 8080 Examples.os_reachable)))
    = EmptyString.
Proof.
  split.
  - apply (proj1 (proj2 (proj2 C9_fresh_failure_reason_empty))). vm_compute. reflexivity.
  - apply (proj2 (proj2 (proj2 C9_fresh_failure_reason_empty))). vm_compute. reflexivity.
Defined.

(** ** Accepting *)

(** C2.  [accept] stays blocked while no client is waiting on the listening
    socket.  When a client that completed its handshake is first in line,
    [accept] returns a newly allocated TCP_Connection.  Whenever [accept]
    returns a connection, such a client was waiting, the connection is what
    the handle-adopting constructor makes of the client's new handle, [isOk]
    on it answers true, and it belongs to the caller: the server is as it
    was, destroying the server leaves the connection's socket open, and
    destroying the connection is what closes it. *)
Theorem C2_accept_returns_adopted_connection (s : TCP_Server.t) (w : OS) :
  (∀ port, descriptors w !! TCP_Server.listen_handle s = Some (Listener port []) →
     TCP_Server.accept s w = None) ∧
  (∀ port client rest,
     descriptors w !! TCP_Server.listen_handle s
       = Some (Listener port (Established client :: rest)) →
     ∃ h w', TCP_Server.accept s w = Some (Some (TCP_Connection.ctor_adopt h), s, w')) ∧
  (∀ conn s' w',
     TCP_Server.accept s w = Some (Some conn, s', w') →
     ∃ port client rest h,
       descriptors w !! TCP_Server.listen_handle s
         = Some (Listener port (Established client :: rest)) ∧
       conn = TCP_Connection.ctor_adopt h ∧
       fst (TCP_Connection.isOk conn) = true ∧
       (h ∉ dom (descriptors w)) ∧
       descriptors w' !! h = Some (Conn client) ∧
       s' = s ∧
       descriptors (TCP_Server.dtor s' w') !! h = Some (Conn client) ∧
       close_calls (TCP_Connection.dtor conn w') = h :: close_calls w').
Proof.
  split_and!.
  - intros port Hl. unfold TCP_Server.accept, os_accept. by rewrite Hl.
  - intros port client rest Hl. unfold TCP_Server.accept, os_accept. rewrite Hl.
    simpl. eauto.
  - intros conn s' w' Hacc.
    apply accept_inv in Hacc as (rep & Hos & Hrep).
    destruct rep as [h|lost reason]; simpl in Hrep; [|done].
    injection Hrep as <- <-.
    unfold os_accept in Hos.
    destruct (descriptors w !! TCP_Server.listen_handle s)
      as [[?|port [|[client|reason] rest]]|] eqn:Hl; simplify_eq.
    set (d := <[TCP_Server.listen_handle s := Listener port rest]> (descriptors w)).
    assert (Hfresh : fresh (dom d) ∉ dom d) by apply is_fresh.
    assert (Hne : fresh (dom d) ≠ TCP_Server.listen_handle s).
    { intros Heq. apply Hfresh. rewrite Heq. unfold d. rewrite dom_insert_L. set_solver. }
    exists port, client, rest, (fresh (dom d)).
    split_and!; try done.
    + intros Hin. apply Hfresh. unfold d. rewrite dom_insert_L. set_solver.
    + simpl. apply lookup_insert_eq.
    + unfold TCP_Server.dtor. destruct (TCP_Server.is_listening s); simpl.
      * rewrite lookup_delete_ne by done. apply lookup_insert_eq.
      * apply lookup_insert_eq.
Qed.

Lemma C2_accept_returns_adopted_connection_witness :
  ∃ port client rest h,
    descriptors Examples.os_listening !! 4
      = Some (Listener port (Established client :: rest)) ∧
    TCP_Connection.ctor_adopt 5 = TCP_Connection.ctor_adopt h ∧
    fst (TCP_Connection.isOk (TCP_Connection.ctor_adopt 5)) = true ∧
    (h ∉ dom (descriptors Examples.os_listening)) ∧
    descriptors
      (Examples.os_with {[ 4 := Listener 8080 []; 5 := Conn idle_stream ]}) !! h
      = Some (Conn client) ∧
    Examples.server_on_4 = Examples.server_on_4 ∧
    descriptors
      (TCP_Server.dtor Examples.server_on_4
         (Examples.os_with {[ 4 := Listener 8080 []; 5 := Conn idle_stream ]})) !! h
      = Some (Conn client) ∧
    close_calls
      (TCP_Connection.dtor (TCP_Connection.ctor_adopt 5)
         (Examples.os_with {[ 4 := Listener 8080 []; 5 := Conn idle_stream ]}))
      = h :: close_calls (Examples.os_with {[ 4 := Listener 8080 []; 5 := Conn idle_stream ]}).
Proof.
  apply (proj2 (proj2 (C2_accept_returns_adopted_connection
                         Examples.server_on_4 Examples.os_listening))).
  vm_compute. reflexivity.
Defined.

(** ** The failure reason *)

(** C8.  A [read] or [write] that returns without a platform error (a
    non-negative result) and an [accept] that returns a connection leave
    [failure_reason] as it was: nothing clears it.  [get_failure] returns the
    stored string, and a failed [read], [write] or [accept] stores the
    platform's text for the error, which is then what [get_failure] returns. *)
Theorem C8_success_keeps_failure_reason :
  (∀ count c w rc data c' w',
     TCP_Connection.read count c w = Some ((rc, data), c', w') → 0 ≤ rc →
     TCP_Connection.failure_reason c' = TCP_Connection.failure_reason c) ∧
  (∀ buffer count c w rc c' w',
     TCP_Connection.write buffer count c w = Some (rc, c', w') → 0 ≤ rc →
     TCP_Connection.failure_reason c' = TCP_Connection.failure_reason c) ∧
  (∀ s w conn s' w',
     TCP_Server.accept s w = Some (Some conn, s', w') →
     TCP_Server.failure_reason s' = TCP_Server.failure_reason s) ∧
  (∀ c, fst (TCP_Connection.get_failure c) = TCP_Connection.failure_reason c) ∧
  (∀ s, fst (TCP_Server.get_failure s) = TCP_Server.failure_reason s) ∧
  (∀ count c w rc data c' w',
     TCP_Connection.read count c w = Some ((rc, data), c', w') → rc < 0 →
     os_recv (TCP_Connection.connection_handle c) count w
       = Some (RecvFail (fst (TCP_Connection.get_failure c')), w')) ∧
  (∀ buffer count c w rc c' w',
     TCP_Connection.write buffer count c w = Some (rc, c', w') → rc < 0 →
     os_send (TCP_Connection.connection_handle c) (take (Z.to_nat count) buffer) w
       = Some (SendFail (fst (TCP_Connection.get_failure c')), w')) ∧
  (∀ s w s' w',
     TCP_Server.accept s w = Some (None, s', w') →
     ∃ lost, os_accept (TCP_Server.listen_handle s) w
               = Some (AcceptFail lost (fst (TCP_Server.get_failure s')), w')).
Proof.
  split_and!.
  - intros count c w rc data c' w' H Hrc.
    apply read_inv in H as (rep & _ & H).
    destruct rep; simpl in H; injection H as <- <- <-; [done|lia].
  - intros buffer count c w rc c' w' H Hrc.
    apply write_inv in H as (rep & _ & H).
    destruct rep; simpl in H; injection H as <- <-; [done|lia].
  - intros s w conn s' w' H.
    apply accept_inv in H as (rep & _ & H).
    destruct rep; simpl in H; [|done]. by injection H as <- <-.
  - done.
  - done.
  - intros count c w rc data c' w' H Hrc.
    apply read_inv in H as (rep & Hos & H).
    destruct rep; simpl in H; injection H as <- <- <-; [lia|done].
  - intros buffer count c w rc c' w' H Hrc.
    apply write_inv in H as (rep & Hos & H).
    destruct rep; simpl in H; injection H as <- <-; [lia|done].
  - intros s w s' w' H.
    apply accept_inv in H as (rep & Hos & H).
    destruct rep as [h|lost reason]; simpl in H; [done|].
    injection H as <-. by exists lost.
Qed.

Lemma C8_success_keeps_failure_reason_witness :
  TCP_Connection.failure_reason
    (TCP_Connection.failed "connection reset by peer" (TCP_Connection.ctor_adopt 3))
  = "connection reset by peer"%string.
Proof.
  apply (proj1 C8_success_keeps_failure_reason 0
           (TCP_Connection.failed "connection reset by peer" (TCP_Connection.ctor_adopt 3))
           Examples.os_finished 0 [] _ Examples.os_finished).
  - vm_compute. reflexivity.
  - lia.
Defined.

(** ** The platform keeps what a handle is *)

Lemma kind_insert_same (d : gmap Z endpoint) h e h' :
  kind (d !! h) = kind (Some e) →
  kind (<[h := e]> d !! h') = kind (d !! h').
Proof.
  intros He. destruct (decide (h = h')) as [->|Hne].
  - by rewrite lookup_insert_eq.
  - by rewrite lookup_insert_ne.
Qed.

Lemma os_recv_kind h count w rep w' h' :
  os_recv h count w = Some (rep, w') →
  kind (descriptors w' !! h') = kind (descriptors w !! h').
Proof.
  unfold os_recv. destruct (descriptors w !! h) as [[s|port q]|] eqn:Hh.
  - destruct (stream_recv count s) as [[rep1 s1]|]; intros ?; simplify_eq.
    simpl. apply kind_insert_same. by rewrite Hh.
  - by intros ?; simplify_eq.
  - by intros ?; simplify_eq.
Qed.

Lemma os_send_kind h data w rep w' h' :
  os_send h data w = Some (rep, w') →
  kind (descriptors w' !! h') = kind (descriptors w !! h').
Proof.
  unfold os_send. destruct (descriptors w !! h) as [[s|port q]|] eqn:Hh.
  - destruct (stream_send data s) as [[rep1 s1]|]; intros ?; simplify_eq.
    simpl. apply kind_insert_same. by rewrite Hh.
  - by intros ?; simplify_eq.
  - by intros ?; simplify_eq.
Qed.

(** [accept] either hands out a handle that was not open before and leaves
    every other handle's kind alone, or changes no kind at all. *)
Lemma os_accept_kind lh w rep w' :
  os_accept lh w = Some (rep, w') →
  match rep with
  | Accepted h =>
      descriptors w !! h = None ∧ kind (descriptors w' !! h) = Some false ∧
      ∀ h', h' ≠ h → kind (descriptors w' !! h') = kind (descriptors w !! h')
  | AcceptFail _ _ =>
      ∀ h', kind (descriptors w' !! h') = kind (descriptors w !! h')
  end.
Proof.
  unfold os_accept.
  destruct (descriptors w !! lh) as [[s|port [|[client|reason] rest]]|] eqn:Hl;
    intros ?; simplify_eq; try done.
  - set (d := <[lh := Listener port rest]> (descriptors w)).
    assert (Hfresh : d !! fresh (dom d) = None) by apply not_elem_of_dom, is_fresh.
    assert (Hd : ∀ h', kind (d !! h') = kind (descriptors w !! h')).
    { intros h'. apply kind_insert_same. by rewrite Hl. }
    split_and!.
    + specialize (Hd (fresh (dom d))). rewrite Hfresh in Hd.
      by destruct (descriptors w !! fresh (dom d)) as [[]|].
    + simpl. by rewrite lookup_insert_eq.
    + intros h' Hne. simpl. by rewrite lookup_insert_ne.
  - intros h'. simpl. apply kind_insert_same. by rewrite Hl.
Qed.

(** ** Destruction *)

Lemma fresh_handle_unused (w : OS) : descriptors w !! fresh_handle w = None.
Proof. unfold fresh_handle. apply not_elem_of_dom. apply is_fresh. Qed.











(** ** Exclusive ownership of handles *)

Section ownership.
Import Process.

Implicit Types (p : Process.t) (a : nat) (h : Z) (w : OS).

Lemma holds_conn_put p a c w srv a' h :
  holds_conn {| os := w; conns := <[a := c]> (conns p); servers := srv |} a' h ↔
  (a' = a ∧ TCP_Connection.is_open c = true ∧ TCP_Connection.connection_handle c = h) ∨
  (a' ≠ a ∧ holds_conn p a' h).
Proof.
  unfold holds_conn; simpl. destruct (decide (a' = a)) as [->|Hne].
  - rewrite lookup_insert_eq. split.
    + intros (x & [= <-] & Ho & Hh). by left.
    + intros [(_ & Ho & Hh)|(Hne & _)]; [by eexists|done].
  - rewrite lookup_insert_ne by done. split.
    + intros H. by right.
    + by intros [(Heq & _)|(_ & H)].
Qed.

Lemma holds_server_put p a s w cs a' h :
  holds_server {| os := w; conns := cs; servers := <[a := s]> (servers p) |} a' h ↔
  (a' = a ∧ TCP_Server.is_listening s = true ∧ TCP_Server.listen_handle s = h) ∨
  (a' ≠ a ∧ holds_server p a' h).
Proof.
  unfold holds_server; simpl. destruct (decide (a' = a)) as [->|Hne].
  - rewrite lookup_insert_eq. split.
    + intros (x & [= <-] & Ho & Hh). by left.
    + intros [(_ & Ho & Hh)|(Hne & _)]; [by eexists|done].
  - rewrite lookup_insert_ne by done. split.
    + intros H. by right.
    + by intros [(Heq & _)|(_ & H)].
Qed.

Lemma holds_conn_delete p a w srv a' h :
  holds_conn {| os := w; conns := delete a (conns p); servers := srv |} a' h ↔
  a' ≠ a ∧ holds_conn p a' h.
Proof.
  unfold holds_conn; simpl. destruct (decide (a' = a)) as [->|Hne].
  - rewrite lookup_delete_eq. split.
    + by intros (x & [=] & _).
    + by intros [Hne _].
  - rewrite lookup_delete_ne by done. split.
    + intros H. by split.
    + by intros [_ H].
Qed.

Lemma holds_server_delete p a w cs a' h :
  holds_server {| os := w; conns := cs; servers := delete a (servers p) |} a' h ↔
  a' ≠ a ∧ holds_server p a' h.
Proof.
  unfold holds_server; simpl. destruct (decide (a' = a)) as [->|Hne].
  - rewrite lookup_delete_eq. split.
    + by intros (x & [=] & _).
    + by intros [Hne _].
  - rewrite lookup_delete_ne by done. split.
    + intros H. by split.
    + by intros [_ H].
Qed.

(** A handle that is not open in the process has no owner. *)
Lemma unused_unowned p h :
  exclusive p → descriptors (os p) !! h = None → unowned p h.
Proof.
  intros [Hc Hs _ _] Hh. split; intros a Ha.
  - apply Hc in Ha. by rewrite Hh in Ha.
  - apply Hs in Ha. by rewrite Hh in Ha.
Qed.

(** Fewer holders and the same kinds behind the handles that are held. *)
Lemma exclusive_shrink p p' :
  exclusive p →
  (∀ a h, holds_conn p' a h → holds_conn p a h) →
  (∀ a h, holds_server p' a h → holds_server p a h) →
  (∀ h, held p h →
        kind (descriptors (os p') !! h) = kind (descriptors (os p) !! h)) →
  exclusive p'.
Proof.
  intros [Hc Hs Hcu Hsu] Hconn Hserv Hkind. split.
  - intros a h Ha%Hconn. rewrite Hkind; [by eapply Hc|]. left. by exists a.
  - intros a h Ha%Hserv. rewrite Hkind; [by eapply Hs|]. right. by exists a.
  - intros a1 a2 h H1%Hconn H2%Hconn. eauto.
  - intros a1 a2 h H1%Hserv H2%Hserv. eauto.
Qed.

(** A new connection object, holding (if open) a stream nobody holds. *)
Lemma exclusive_new_conn p a c w srv :
  exclusive p →
  (∀ a' h, holds_server {| os := w; conns := <[a := c]> (conns p); servers := srv |} a' h →
           holds_server p a' h) →
  (TCP_Connection.is_open c = true →
     kind (descriptors w !! TCP_Connection.connection_handle c) = Some false ∧
     unowned p (TCP_Connection.connection_handle c)) →
  (∀ h, kind (descriptors (os p) !! h) ≠ None →
        kind (descriptors w !! h) = kind (descriptors (os p) !! h)) →
  exclusive {| os := w; conns := <[a := c]> (conns p); servers := srv |}.
Proof.
  intros [Hc Hs Hcu Hsu] Hserv Hnew Hkind. split.
  - intros a' h [(-> & Ho & <-)|(Hne & Ha)]%holds_conn_put; simpl.
    + by apply Hnew.
    + pose proof (Hc _ _ Ha) as Hk. rewrite Hkind; [done|]. by rewrite Hk.
  - intros a' h Ha%Hserv. simpl. pose proof (Hs _ _ Ha) as Hk.
    rewrite Hkind; [done|]. by rewrite Hk.
  - intros a1 a2 h [(-> & Ho1 & <-)|(Hne1 & H1)]%holds_conn_put
                   [(-> & Ho2 & Hh)|(Hne2 & H2)]%holds_conn_put; [done| | |by eauto].
    + destruct (Hnew Ho1) as [_ [Hun _]]. by destruct (Hun a2).
    + destruct (Hnew Ho2) as [_ [Hun _]]. rewrite Hh in Hun. by destruct (Hun a1).
  - intros a1 a2 h H1%Hserv H2%Hserv. eauto.
Qed.

(** A new server object, holding (if listening) a listener nobody holds. *)
Lemma exclusive_new_server p a s w :
  exclusive p →
  (TCP_Server.is_listening s = true →
     kind (descriptors w !! TCP_Server.listen_handle s) = Some true ∧
     unowned p (TCP_Server.listen_handle s)) →
  (∀ h, kind (descriptors (os p) !! h) ≠ None →
        kind (descriptors w !! h) = kind (descriptors (os p) !! h)) →
  exclusive (put_server a s w p).
Proof.
  intros [Hc Hs Hcu Hsu] Hnew Hkind. unfold put_server. split.
  - intros a' h Ha. simpl. pose proof (Hc _ _ Ha) as Hk.
    rewrite Hkind; [done|]. by rewrite Hk.
  - intros a' h [(-> & Ho & <-)|(Hne & Ha)]%holds_server_put; simpl.
    + by apply Hnew.
    + pose proof (Hs _ _ Ha) as Hk. rewrite Hkind; [done|]. by rewrite Hk.
  - intros a1 a2 h H1 H2. exact (Hcu _ _ _ H1 H2).
  - intros a1 a2 h [(-> & Ho1 & <-)|(Hne1 & H1)]%holds_server_put
                   [(-> & Ho2 & Hh)|(Hne2 & H2)]%holds_server_put; [done| | |by eauto].
    + destruct (Hnew Ho1) as [_ [_ Hun]]. by destruct (Hun a2).
    + destruct (Hnew Ho2) as [_ [_ Hun]]. rewrite Hh in Hun. by destruct (Hun a1).
Qed.

(** Destroying a connection takes its handle, and nothing else, away. *)
Lemma exclusive_delete_conn p a c :
  exclusive p → conns p !! a = Some c →
  exclusive {| os := TCP_Connection.dtor c (os p);
               conns := delete a (conns p); servers := servers p |}.
Proof.
  intros Hex Ha. unfold TCP_Connection.dtor.
  destruct (TCP_Connection.is_open c) eqn:Ho.
  - assert (Hown : holds_conn p a (TCP_Connection.connection_handle c)) by by exists c.
    destruct Hex as [Hc Hs Hcu Hsu]. split.
    + intros a' h [Hne H]%holds_conn_delete. simpl.
      rewrite lookup_delete_ne; [by eapply Hc|].
      intros Heq. apply Hne. rewrite <- Heq in H. by eapply Hcu.
    + intros a' h H. simpl. rewrite lookup_delete_ne; [by eapply (Hs a')|].
      intros Heq. apply (Hs a') in H. apply Hc in Hown. rewrite Heq in Hown. congruence.
    + intros a1 a2 h [_ H1]%holds_conn_delete [_ H2]%holds_conn_delete. eauto.
    + intros a1 a2 h H1 H2. exact (Hsu _ _ _ H1 H2).
  - eapply exclusive_shrink; [done|..|done].
    + by intros a' h [_ H]%holds_conn_delete.
    + by intros a' h H.
Qed.

(** Destroying a server takes its handle, and nothing else, away. *)
Lemma exclusive_delete_server p a s :
  exclusive p → servers p !! a = Some s →
  exclusive {| os := TCP_Server.dtor s (os p);
               conns := conns p; servers := delete a (servers p) |}.
Proof.
  intros Hex Ha. unfold TCP_Server.dtor.
  destruct (TCP_Server.is_listening s) eqn:Ho.
  - assert (Hown : holds_server p a (TCP_Server.listen_handle s)) by by exists s.
    destruct Hex as [Hc Hs Hcu Hsu]. split.
    + intros a' h H. simpl. rewrite lookup_delete_ne; [by eapply (Hc a')|].
      intros Heq. apply (Hc a') in H. apply Hs in Hown. rewrite Heq in Hown. congruence.
    + intros a' h [Hne H]%holds_server_delete. simpl.
      rewrite lookup_delete_ne; [by eapply Hs|].
      intros Heq. apply Hne. rewrite <- Heq in H. by eapply Hsu.
    + intros a1 a2 h H1 H2. exact (Hcu _ _ _ H1 H2).
    + intros a1 a2 h [_ H1]%holds_server_delete [_ H2]%holds_server_delete. eauto.
  - eapply exclusive_shrink; [done|..|done].
    + by intros a' h H.
    + by intros a' h [_ H]%holds_server_delete.
Qed.

(** Replacing an object by itself, or by a failed version of itself, adds no
    holder. *)
Lemma holds_conn_replace p a c c' w a' h :
  conns p !! a = Some c →
  (TCP_Connection.is_open c' = true → c' = c) →
  holds_conn (put_conn a c' w p) a' h → holds_conn p a' h.
Proof.
  intros Ha Hsame [(-> & Ho & <-)|(_ & H)]%holds_conn_put; [|done].
  pose proof (Hsame Ho) as ->. by exists c.
Qed.

Lemma holds_server_replace p a s s' w cs a' h :
  servers p !! a = Some s →
  (TCP_Server.is_listening s' = true →
     TCP_Server.is_listening s = true ∧
     TCP_Server.listen_handle s' = TCP_Server.listen_handle s) →
  holds_server {| os := w; conns := cs; servers := <[a := s']> (servers p) |} a' h →
  holds_server p a' h.
Proof.
  intros Ha Hsame [(-> & Ho & <-)|(_ & H)]%holds_server_put; [|done].
  destruct (Hsame Ho) as [Hl ->]. by exists s.
Qed.

Lemma exec_run o p p' :
  exec o p = Some p' → permitted o = true ∧ run o p = Some p'.
Proof. unfold exec. by destruct (permitted o). Qed.

(** Every operation that honours the caller's rules preserves exclusive
    ownership. *)
Lemma exclusive_exec o p p' :
  exclusive p → caller_ok o p → exec o p = Some p' → exclusive p'.
Proof.
  intros Hex Hok [Hperm Hexec]%exec_run.
  destruct o; try discriminate Hperm; cbn [run] in Hexec.
  - (* new TCP_Connection(host, port) *)
    destruct (conns p !! a) eqn:Ha; [done|].
    pose proof (ctor_connect_cases host port (os p)) as Hcases.
    destruct (TCP_Connection.ctor_connect host port (os p)) as [c w].
    injection Hexec as <-.
    destruct Hcases as [(h & [= -> ->] & ->)|(r & [= -> ->] & _)];
      apply exclusive_new_conn; try done; simpl.
    + intros _. split; [by rewrite lookup_insert_eq|].
      apply unused_unowned, fresh_handle_unused. done.
    + intros h Hh. rewrite lookup_insert_ne; [done|].
      intros <-. by rewrite fresh_handle_unused in Hh.
  - (* new TCP_Connection(h) *)
    destruct (conns p !! a) eqn:Ha; [done|]. injection Hexec as <-.
    apply exclusive_new_conn; try done.
  - (* delete, connection *)
    destruct (conns p !! a) as [c|] eqn:Ha; [|done]. injection Hexec as <-.
    by apply exclusive_delete_conn.
  - (* read *)
    destruct (conns p !! a) as [c|] eqn:Ha; [|done].
    destruct (TCP_Connection.read count c (os p)) as [[[r c'] w]|] eqn:Hr; [|done].
    injection Hexec as <-.
    apply read_inv in Hr as (rep & Hos & Hrep).
    eapply exclusive_shrink; [done|..].
    + intros a' h. eapply holds_conn_replace; [done|].
      intros Ho. pose proof (on_recv_open rep c) as Hsame.
      rewrite Hrep in Hsame. by apply Hsame.
    + by intros a' h H.
    + intros h _. simpl. by eapply os_recv_kind.
  - (* write *)
    destruct (conns p !! a) as [c|] eqn:Ha; [|done].
    destruct (TCP_Connection.write buffer count c (os p)) as [[[r c'] w]|] eqn:Hr; [|done].
    injection Hexec as <-.
    apply write_inv in Hr as (rep & Hos & Hrep).
    eapply exclusive_shrink; [done|..].
    + intros a' h. eapply holds_conn_replace; [done|].
      intros Ho. pose proof (on_send_open rep c) as Hsame.
      rewrite Hrep in Hsame. by apply Hsame.
    + by intros a' h H.
    + intros h _. simpl. by eapply os_send_kind.
  - (* isOk, connection *)
    destruct (conns p !! a) as [c|] eqn:Ha; [|done]. injection Hexec as <-.
    eapply exclusive_shrink; [done|..|done].
    + intros a' h. by eapply holds_conn_replace.
    + by intros a' h H.
  - (* get_failure, connection *)
    destruct (conns p !! a) as [c|] eqn:Ha; [|done].
    rewrite conn_get_failure_same in Hexec. injection Hexec as <-.
    eapply exclusive_shrink; [done|..|done].
    + intros a' h. by eapply holds_conn_replace.
    + by intros a' h H.
  - (* new TCP_Server(port) *)
    destruct (servers p !! a) eqn:Ha; [done|].
    pose proof (server_ctor_cases port (os p)) as Hcases.
    destruct (TCP_Server.ctor port (os p)) as [s w].
    injection Hexec as <-.
    destruct Hcases as [(h & [= -> ->] & ->)|(r & [= -> ->] & _)];
      apply exclusive_new_server; try done; simpl.
    + intros _. split; [by rewrite lookup_insert_eq|].
      apply unused_unowned, fresh_handle_unused. done.
    + intros h Hh. rewrite lookup_insert_ne; [done|].
      intros <-. by rewrite fresh_handle_unused in Hh.
  - (* delete, server *)
    destruct (servers p !! a) as [s|] eqn:Ha; [|done]. injection Hexec as <-.
    by apply exclusive_delete_server.
  - (* accept *)
    destruct (servers p !! a) as [s|] eqn:Ha; [|done].
    destruct (conns p !! a') eqn:Ha'; [done|].
    destruct (TCP_Server.accept s (os p)) as [[[r s'] w]|] eqn:Hacc; [|done].
    apply accept_inv in Hacc as (rep & Hos & Hrep).
    apply os_accept_kind in Hos.
    destruct rep as [h|lost reason]; simpl in Hrep; injection Hrep as <- <-;
      injection Hexec as <-.
    + destruct Hos as (Hnone & Hk & Hother).
      apply exclusive_new_conn; [done|..].
      * intros a0 h0. by eapply holds_server_replace.
      * intros _. split; [done|]. by apply unused_unowned.
      * intros h' Hh'. apply Hother. intros ->. by rewrite Hnone in Hh'.
    + eapply exclusive_shrink; [done|..].
      * by intros a0 h0 H.
      * intros a0 h0. eapply holds_server_replace; [done|]. simpl.
        by intros [? _]%andb_true_iff.
      * intros h' _. apply Hos.
  - (* isOk, server *)
    destruct (servers p !! a) as [s|] eqn:Ha; [|done]. injection Hexec as <-.
    eapply exclusive_shrink; [done|..|done].
    + by intros a' h H.
    + intros a' h. by eapply holds_server_replace.
  - (* get_failure, server *)
    destruct (servers p !! a) as [s|] eqn:Ha; [|done].
    rewrite server_get_failure_same in Hexec. injection Hexec as <-.
    eapply exclusive_shrink; [done|..|done].
    + by intros a' h H.
    + intros a' h. by eapply holds_server_replace.
  - (* the socket stack moves *)
    injection Hexec as <-.
    eapply exclusive_shrink; [done|by intros a h H..|done].
Qed.

Lemma exclusive_start w : exclusive (start w).
Proof.
  split; unfold holds_conn, holds_server; simpl.
  - intros a h (c & Hc & _). by rewrite lookup_empty in Hc.
  - intros a h (s & Hs & _). by rewrite lookup_empty in Hs.
  - intros a1 a2 h (c & Hc & _). by rewrite lookup_empty in Hc.
  - intros a1 a2 h (s & Hs & _). by rewrite lookup_empty in Hs.
Qed.

(** Exclusive ownership is an invariant of every run that honours the
    caller's rules. *)
Lemma exclusive_run p p' :
  rtc disciplined_step p p' → exclusive p → exclusive p'.
Proof.
  induction 1 as [p|p q r (o & Hok & Hexec) _ IH]; [done|].
  intros Hex. apply IH. by eapply exclusive_exec.
Qed.

End ownership.

(** ** What the flags say about the handles *)

Lemma start_unowned w h : Process.unowned (Process.start w) h.
Proof.
  split; intros a (x & Hx & _); simpl in Hx; by rewrite lookup_empty in Hx.
Qed.

Lemma adopted_once_reachable :
  rtc Process.disciplined_step (Process.start Examples.os_pending) Examples.adopted_once.
Proof.
  apply rtc_once. exists (Process.NewAdopt 0 3). split.
  - split; [by vm_compute|apply start_unowned].
  - by vm_compute.
Qed.

(** The platform reports an error on a handle only when the handle is not a
    usable stream. *)
Lemma os_recv_fail_unusable h count w reason w' :
  os_recv h count w = Some (RecvFail reason, w') → ¬ usable w h.
Proof.
  unfold os_recv, usable, stream_recv. intros Hos (s & Hs & Hb).
  rewrite Hs, Hb in Hos.
  destruct (rx s); [destruct (peer_closed s)|]; simplify_eq.
Qed.

Lemma os_send_fail_unusable h data w reason w' :
  os_send h data w = Some (SendFail reason, w') → ¬ usable w h.
Proof.
  unfold os_send, usable, stream_send. intros Hos (s & Hs & Hb).
  rewrite Hs, Hb in Hos.
  destruct data; [|destruct (tx_room s)]; simplify_eq.
Qed.

(** C3, as stated, fails: the handle-adopting constructor sets [is_open]
    whatever it is given.  Adopting the invalid handle gives an object whose
    flag is true although the handle is no socket at all, and adopting a
    handle whose transport has failed gives one whose flag is true although
    the socket is not usable. *)
Lemma C3_adopted_handle_counterexample :
  ¬ (TCP_Connection.is_open (TCP_Connection.ctor_adopt INVALID_HANDLE) = true ↔
     live_stream Process.empty_os
       (TCP_Connection.connection_handle (TCP_Connection.ctor_adopt INVALID_HANDLE))) ∧
  ¬ (TCP_Connection.is_open (TCP_Connection.ctor_adopt 3) = true ↔
     usable Examples.os_reset
       (TCP_Connection.connection_handle (TCP_Connection.ctor_adopt 3))).
Proof.
  split.
  - intros [H _]. specialize (H eq_refl). by vm_compute in H.
  - intros [H _]. destruct (H eq_refl) as (s & Hs & Hb).
    unfold Examples.os_reset, Examples.os_with in Hs. simpl in Hs.
    rewrite lookup_singleton_eq in Hs. by simplify_eq.
Qed.

(** C3, as amended.  [isOk] returns exactly the flag and leaves the object
    alone, on connections and on servers.  In a program that honours the
    caller's two rules (it adopts only established connections that no live
    object holds, and nothing but the objects themselves closes or replaces a
    handle that a live object holds), a connection whose [isOk] answers true
    holds an established stream of the process, and a server whose [isOk]
    answers true holds a listening socket of the process, whatever else the
    program and the environment do to the socket stack.  A [read] or [write]
    clears [is_open] only when its handle is not a usable stream, and once
    [isOk] has answered false it answers false for good. *)
Theorem C3_isOk_reports_flag :
  (∀ c, TCP_Connection.isOk c = (TCP_Connection.is_open c, c)) ∧
  (∀ s, TCP_Server.isOk s = (TCP_Server.is_listening s, s)) ∧
  (∀ w p, rtc Process.disciplined_step (Process.start w) p →
     (∀ a c, Process.conns p !! a = Some c →
        fst (TCP_Connection.isOk c) = true →
        live_stream (Process.os p) (TCP_Connection.connection_handle c)) ∧
     (∀ a s, Process.servers p !! a = Some s →
        fst (TCP_Server.isOk s) = true →
        kind (descriptors (Process.os p) !! TCP_Server.listen_handle s) = Some true)) ∧
  (∀ count c w r c' w',
     TCP_Connection.read count c w = Some (r, c', w') →
     fst (TCP_Connection.isOk c) = true → fst (TCP_Connection.isOk c') = false →
     ¬ usable w (TCP_Connection.connection_handle c)) ∧
  (∀ buffer count c w r c' w',
     TCP_Connection.write buffer count c w = Some (r, c', w') →
     fst (TCP_Connection.isOk c) = true → fst (TCP_Connection.isOk c') = false →
     ¬ usable w (TCP_Connection.connection_handle c)) ∧
  (∀ c w c' w', rtc Calls.conn_step (c, w) (c', w') →
     fst (TCP_Connection.isOk c) = false → fst (TCP_Connection.isOk c') = false).
Proof.
  split_and!; [done..| | | |].
  - intros w p Hrun.
    destruct (exclusive_run _ _ Hrun (exclusive_start w)) as [Hc Hs _ _].
    split.
    + intros a c Ha Ho. apply (Hc a). by exists c.
    + intros a s Ha Ho. apply (Hs a). by exists s.
  - intros count c w r c' w' Hread Ho Hc.
    apply read_inv in Hread as (rep & Hos & Hrep).
    destruct rep as [data|reason]; simpl in *.
    + injection Hrep as <- <-. congruence.
    + by eapply os_recv_fail_unusable.
  - intros buffer count c w r c' w' Hwrite Ho Hc.
    apply write_inv in Hwrite as (rep & Hos & Hrep).
    destruct rep as [n|reason]; simpl in *.
    + injection Hrep as <- <-. congruence.
    + by eapply os_send_fail_unusable.
  - intros c w c' w' Hrun. apply (conn_run_stays_closed _ _ Hrun).
Qed.

Lemma C3_isOk_reports_flag_witness :
  live_stream (Process.os Examples.adopted_once)
    (TCP_Connection.connection_handle (TCP_Connection.ctor_adopt 3)) ∧
  ¬ usable Examples.os_reset
      (TCP_Connection.connection_handle (TCP_Connection.ctor_adopt 3)).
Proof.
  split.
  - apply (proj1 (proj1 (proj2 (proj2 C3_isOk_reports_flag)) Examples.os_pending
                    Examples.adopted_once adopted_once_reachable) 0%nat).
    + by vm_compute.
    + reflexivity.
  - apply (proj1 (proj2 (proj2 (proj2 C3_isOk_reports_flag))) 1
             (TCP_Connection.ctor_adopt 3) Examples.os_reset (-1, [])
             (TCP_Connection.failed "connection reset by peer" (TCP_Connection.ctor_adopt 3))
             Examples.os_reset).
    + by vm_compute.
    + reflexivity.
    + reflexivity.
Defined.

(** Case analysis on one operation, down to the objects that can be new. *)
Ltac fresh_object Hexec Hsome :=
  repeat match type of Hexec with
         | context [Process.conns ?p !! ?x] =>
             destruct (Process.conns p !! x) eqn:?; try done
         | context [Process.servers ?p !! ?x] =>
             destruct (Process.servers p !! x) eqn:?; try done
         | context [TCP_Connection.ctor_connect ?h ?n ?w] =>
             let E := fresh "Hctor" in
             destruct (TCP_Connection.ctor_connect h n w) eqn:E
         | context [TCP_Server.ctor ?n ?w] =>
             let E := fresh "Hctor" in
             destruct (TCP_Server.ctor n w) eqn:E
         | context [TCP_Connection.read ?n ?c ?w] =>
             destruct (TCP_Connection.read n c w) as [[[? ?] ?]|] eqn:?; try done
         | context [TCP_Connection.write ?b ?n ?c ?w] =>
             destruct (TCP_Connection.write b n c w) as [[[? ?] ?]|] eqn:?; try done
         | context [TCP_Server.accept ?s ?w] =>
             let E := fresh "Haccept" in
             destruct (TCP_Server.accept s w) as [[[[?|] ?] ?]|] eqn:E; try done
         end;
  injection Hexec as <-; cbn in Hsome;
  repeat first [rewrite lookup_insert in Hsome | rewrite lookup_delete in Hsome];
  repeat case_decide; simplify_eq; try done.

(** What a memberwise copy would do: the original and the copy both hold the
    handle. *)
Lemma copy_shares_handle p p' a a' h :
  Process.run (Process.CopyConn a a') p = Some p' →
  Process.holds_conn p a h →
  a ≠ a' ∧ Process.holds_conn p' a h ∧ Process.holds_conn p' a' h.
Proof.
  intros Hrun (c & Ha & Ho & Hh). cbn [Process.run] in Hrun. rewrite Ha in Hrun.
  destruct (Process.conns p !! a') eqn:Ha'; [done|]. injection Hrun as <-.
  assert (a ≠ a') by congruence.
  split_and!; [done|..]; exists c; simpl.
  - by rewrite lookup_insert_ne.
  - by rewrite lookup_insert_eq.
Qed.

Lemma two_and_two_reachable :
  rtc Process.disciplined_step (Process.start Examples.os_busy) Examples.two_and_two_state.
Proof.
  eapply rtc_l.
  { exists (Process.NewAdopt 0 3). split; [|by vm_compute].
    split; [by vm_compute|apply start_unowned]. }
  eapply rtc_l.
  { exists (Process.NewConnect 1 "localhost" 8080). split; [done|by vm_compute]. }
  eapply rtc_l.
  { exists (Process.NewServer 0 9090). split; [done|by vm_compute]. }
  apply rtc_once.
  exists (Process.NewServer 1 9091). split; [done|by vm_compute].
Qed.

(** C6, as stated, fails: nothing keeps a program from handing one handle to
    the handle-adopting constructor twice, after which two live objects hold
    it. *)
Lemma C6_double_adoption_counterexample :
  Process.exec_all [Process.NewAdopt 0 3; Process.NewAdopt 1 3]
    (Process.start Examples.os_pending) = Some Examples.adopted_twice ∧
  Process.holds_conn Examples.adopted_twice 0 3 ∧
  Process.holds_conn Examples.adopted_twice 1 3 ∧
  ¬ Process.exclusive Examples.adopted_twice.
Proof.
  assert (H0 : Process.holds_conn Examples.adopted_twice 0 3).
  { exists (TCP_Connection.ctor_adopt 3). by vm_compute. }
  assert (H1 : Process.holds_conn Examples.adopted_twice 1 3).
  { exists (TCP_Connection.ctor_adopt 3). by vm_compute. }
  split_and!; [by vm_compute|done..|].
  intros [_ _ Hunique _]. by specialize (Hunique _ _ _ H0 H1).
Qed.

(** C6, as amended.  The copy constructor and the copy assignment operator
    of both classes are private in the header, so no program can perform
    them; a copy, if it could be made, would hold the handle of the
    original.  Connection objects therefore come into being only through the
    two public constructors (directly or inside [accept]) and server objects
    only through the public one.  In every program that honours the caller's
    two rules, no two live objects hold the same handle: not two
    connections, not two servers, not a connection and a server. *)
Theorem C6_exclusive_handles :
  (Header.access_of Header.TCP_Connection_copy = Header.Private ∧
   Header.access_of Header.TCP_Connection_assign = Header.Private ∧
   Header.access_of Header.TCP_Server_copy = Header.Private ∧
   Header.access_of Header.TCP_Server_assign = Header.Private) ∧
  (∀ p a a',
     Process.exec (Process.CopyConn a a') p = None ∧
     Process.exec (Process.AssignConn a a') p = None ∧
     Process.exec (Process.CopyServer a a') p = None ∧
     Process.exec (Process.AssignServer a a') p = None) ∧
  (∀ p p' a a' h,
     Process.run (Process.CopyConn a a') p = Some p' →
     Process.holds_conn p a h →
     a ≠ a' ∧ Process.holds_conn p' a h ∧ Process.holds_conn p' a' h) ∧
  (∀ o p p' a c, Process.exec o p = Some p' →
     Process.conns p !! a = None → Process.conns p' !! a = Some c →
     (∃ h, c = TCP_Connection.ctor_adopt h) ∨
     (∃ host port, c = fst (TCP_Connection.ctor_connect host port (Process.os p)))) ∧
  (∀ o p p' a s, Process.exec o p = Some p' →
     Process.servers p !! a = None → Process.servers p' !! a = Some s →
     ∃ port, s = fst (TCP_Server.ctor port (Process.os p))) ∧
  (∀ w p, rtc Process.disciplined_step (Process.start w) p →
     (∀ a1 a2 h1 h2, a1 ≠ a2 →
        Process.holds_conn p a1 h1 → Process.holds_conn p a2 h2 → h1 ≠ h2) ∧
     (∀ a1 a2 h1 h2, a1 ≠ a2 →
        Process.holds_server p a1 h1 → Process.holds_server p a2 h2 → h1 ≠ h2) ∧
     (∀ a1 a2 h1 h2,
        Process.holds_conn p a1 h1 → Process.holds_server p a2 h2 → h1 ≠ h2)).
Proof.
  split; [done|]. split; [done|]. split_and!.
  - intros p p' a a' h. apply copy_shares_handle.
  - intros o p p' a c [Hperm Hexec]%exec_run Hnone Hsome.
    destruct o; try discriminate Hperm; cbn [Process.run] in Hexec;
      fresh_object Hexec Hsome.
    + right. exists host, port. by rewrite Hctor.
    + left. by exists h.
    + apply accept_inv in Haccept as (rep & _ & Hrep).
      destruct rep as [h|lost reason]; simpl in Hrep; [|done].
      left. exists h. congruence.
  - intros o p p' a s [Hperm Hexec]%exec_run Hnone Hsome.
    destruct o; try discriminate Hperm; cbn [Process.run] in Hexec;
      fresh_object Hexec Hsome.
    exists port. by rewrite Hctor.
  - intros w p Hrun.
    destruct (exclusive_run _ _ Hrun (exclusive_start w)) as [Hc Hs Hcu Hsu].
    split_and!.
    + intros a1 a2 h1 h2 Hne H1 H2 <-. apply Hne. by eapply Hcu.
    + intros a1 a2 h1 h2 Hne H1 H2 <-. apply Hne. by eapply Hsu.
    + intros a1 a2 h1 h2 H1%Hc H2%Hs <-. congruence.
Qed.

Lemma C6_exclusive_handles_witness : 3 ≠ 4 ∧ 5 ≠ 6 ∧ 4 ≠ 5.
Proof.
  destruct (proj2 (proj2 (proj2 (proj2 (proj2 C6_exclusive_handles)))) Examples.os_busy
              Examples.two_and_two_state two_and_two_reachable) as (Hcc & Hss & Hcs).
  split_and!.
  - apply (Hcc 0%nat 1%nat); [done|..].
    + exists (TCP_Connection.ctor_adopt 3). by vm_compute.
    + exists (TCP_Connection.ctor_adopt 4). by vm_compute.
  - apply (Hss 0%nat 1%nat); [done|..].
    + eexists. split_and!; [by vm_compute|done..].
    + eexists. split_and!; [by vm_compute|done..].
  - apply (Hcs 1%nat 0%nat).
    + exists (TCP_Connection.ctor_adopt 4). by vm_compute.
    + eexists. split_and!; [by vm_compute|done..].
Defined.

Lemma C7_closed_is_terminal_witness :
  TCP_Connection.is_open
    (TCP_Connection.failed "connection reset by peer" (TCP_Connection.ctor_adopt 3)) = false.
Proof.
  apply (proj1 C7_closed_is_terminal
           (TCP_Connection.failed "connection reset by peer" (TCP_Connection.ctor_adopt 3))
           Examples.os_reset _ Examples.os_reset).
  - apply rtc_once. right. exists (Calls.CRead 1). by vm_compute.
  - reflexivity.
Defined.

(** ** Polling *)

Section poll_facts.
Context {T : Type} (ask : Queries.query → T → Queries.answer * T).
Hypothesis ask_same : ∀ q this, snd (ask q this) = this.

(** Polling with queries that leave the object alone leaves it alone, and
    every answer is the one the first call would have given. *)
Lemma poll_pure (qs : list Queries.query) (this : T) :
  Queries.poll ask qs this = (map (λ q, fst (ask q this)) qs, this).
Proof.
  induction qs as [|q rest IH]; [done|].
  cbn [Queries.poll map].
  rewrite (surjective_pairing (ask q this)), ask_same, IH. done.
Qed.

End poll_facts.

Lemma conn_ask_same q (c : TCP_Connection.t) : snd (Queries.conn_ask q c) = c.
Proof. destruct q; [done|]. by destruct c as [[reason] h o]. Qed.

Lemma server_ask_same q (s : TCP_Server.t) : snd (Queries.server_ask q s) = s.
Proof. destruct q; [done|]. by destruct s as [[reason] h l]. Qed.

(** X1.  Any sequence of [isOk] and [get_failure] calls on a TCP_Connection,
    in any order and of any length, leaves the object exactly as it was, and
    every [isOk] in it answers the [is_open] flag and every [get_failure] the
    [failure_reason] the object had before the first call. *)
Theorem X1_conn_poll (qs : list Queries.query) (c : TCP_Connection.t) :
  Queries.poll Queries.conn_ask qs c
  = (map (λ q, match q with
               | Queries.IsOk => Queries.Flag (TCP_Connection.is_open c)
               | Queries.GetFailure => Queries.Reason (TCP_Connection.failure_reason c)
               end) qs,
     c).
Proof.
  rewrite (poll_pure _ conn_ask_same). f_equal.
  apply map_ext. by intros [].
Qed.

(** X2.  Any sequence of [isOk] and [get_failure] calls on a TCP_Server leaves
    the object exactly as it was, and every [isOk] in it answers the
    [is_listening] flag and every [get_failure] the [failure_reason] the
    object had before the first call. *)
Theorem X2_server_poll (qs : list Queries.query) (s : TCP_Server.t) :
  Queries.poll Queries.server_ask qs s
  = (map (λ q, match q with
               | Queries.IsOk => Queries.Flag (TCP_Server.is_listening s)
               | Queries.GetFailure => Queries.Reason (TCP_Server.failure_reason s)
               end) qs,
     s).
Proof.
  rewrite (poll_pure _ server_ask_same). f_equal.
  apply map_ext. by intros [].
Qed.

(** X3.  A connection made by the handle-adopting constructor answers true to
    every [isOk] and the empty string to every [get_failure], however often
    and in whatever order it is asked and whatever handle it was given:
    asking never looks at the handle. *)
Theorem X3_adopted_poll (h : Z) (qs : list Queries.query) :
  fst (Queries.poll Queries.conn_ask qs (TCP_Connection.ctor_adopt h))
  = map (λ q, match q with
              | Queries.IsOk => Queries.Flag true
              | Queries.GetFailure => Queries.Reason EmptyString
              end) qs.
Proof.
  rewrite (poll_pure _ conn_ask_same). simpl.
  apply map_ext. by intros [].
Qed.
